(** * Contact-resolution kernels of the contact-simulation notebook

    A shallow embedding of the four Python functions of the notebook
    (the PGS solver [solve_contact], the cone projection [SOC_projection],
    the ADMM solver [solve_contact_ADMM_CCP] and the Signorini diagnostic
    [compute_sig_residual]) together with the properties their
    specification states about them.

    Numbers are exact reals extended with the IEEE special values that a
    division by zero produces ([xreal]); Python exceptions are an explicit
    [result]; the module namespace read by a function body is a finite map
    from names to objects. *)

From Stdlib Require Import Reals Lra ZArith.
From stdpp Require Import base list strings gmap.

Local Open Scope R_scope.

(** ** Numbers: reals with signed infinities and NaN *)

Inductive xreal : Type :=
  | Fin (r : R)
  | Inf (neg : bool)
  | NaN.

#[global] Instance xreal_inhabited : Inhabited xreal := populate (Fin 0).

Definition Rneg (r : R) : bool := if Rlt_dec r 0 then true else false.

Definition xadd (x y : xreal) : xreal :=
  match x, y with
  | NaN, _ | _, NaN => NaN
  | Fin a, Fin b => Fin (a + b)
  | Fin _, Inf s | Inf s, Fin _ => Inf s
  | Inf s, Inf t => if Bool.eqb s t then Inf s else NaN
  end.

Definition xmul (x y : xreal) : xreal :=
  match x, y with
  | NaN, _ | _, NaN => NaN
  | Fin a, Fin b => Fin (a * b)
  | Fin a, Inf s | Inf s, Fin a =>
      if Req_dec_T a 0 then NaN else Inf (xorb s (Rneg a))
  | Inf s, Inf t => Inf (xorb s t)
  end.

(** Division as numpy performs it on float64: [0/0] is NaN, [a/0] is an
    infinity with the sign of [a] (every divisor of the program is a
    Euclidean norm, hence a non-negative zero). *)
Definition xdiv (x y : xreal) : xreal :=
  match x, y with
  | NaN, _ | _, NaN => NaN
  | Fin a, Fin b =>
      if Req_dec_T b 0
      then (if Req_dec_T a 0 then NaN else Inf (Rneg a))
      else Fin (a / b)
  | Fin _, Inf _ => Fin 0
  | Inf s, Fin b => Inf (xorb s (Rneg b))
  | Inf _, Inf _ => NaN
  end.

Definition xsqrt (x : xreal) : xreal :=
  match x with
  | Fin a => if Rlt_dec a 0 then NaN else Fin (sqrt a)
  | Inf false => Inf false
  | Inf true => NaN
  | NaN => NaN
  end.

Definition xabs (x : xreal) : xreal :=
  match x with
  | Fin a => Fin (Rabs a)
  | Inf _ => Inf false
  | NaN => NaN
  end.

(** [x < y]; every comparison with NaN is false. *)
Definition xltb (x y : xreal) : bool :=
  match x, y with
  | NaN, _ | _, NaN => false
  | Fin a, Fin b => if Rlt_dec a b then true else false
  | Fin _, Inf s => negb s
  | Inf s, Fin _ => s
  | Inf s, Inf t => s && negb t
  end.

Definition xgtb (x y : xreal) : bool := xltb y x.

(** [x <= y]; every comparison with NaN is false. *)
Definition xleb (x y : xreal) : bool :=
  match x, y with
  | NaN, _ | _, NaN => false
  | Fin a, Fin b => if Rle_dec a b then true else false
  | Fin _, Inf s => negb s
  | Inf s, Fin _ => s
  | Inf s, Inf t => s || negb t
  end.

(** [np.maximum]: NaN propagates. *)
Definition xmax (x y : xreal) : xreal :=
  match x, y with
  | NaN, _ | _, NaN => NaN
  | _, _ => if xltb x y then y else x
  end.

(** [==] on float64: NaN is equal to nothing, itself included. *)
Definition xeq (x y : xreal) : Prop :=
  match x, y with
  | Fin a, Fin b => a = b
  | Inf s, Inf t => s = t
  | _, _ => False
  end.

(** ** Arrays *)

Abbreviation ndarray := (list xreal).
Abbreviation rvec := (list R).
Abbreviation rmatrix := (list (list R)).

Definition np_zeros (n : nat) : ndarray := replicate n (Fin 0).

(** [np.array_equal]: same shape and [==] elementwise. *)
Definition array_equal (u v : ndarray) : Prop := Forall2 xeq u v.

(** [np.linalg.norm] of the two-element slice [[a, b]]. *)
Definition norm2 (a b : xreal) : xreal :=
  xsqrt (xadd (xmul a a) (xmul b b)).

(** ** Python control: exceptions and [for ... in range(...)] *)

Inductive exn : Type :=
  | NameError (name : string)
  | IndexError
  | ValueError.

Inductive result (A : Type) : Type :=
  | Ok (a : A)
  | Raise (e : exn).
Arguments Ok {A} a.
Arguments Raise {A} e.

#[global] Instance result_ret : MRet result := fun A a => Ok a.

#[global] Instance result_bind : MBind result := fun A B k m =>
  match m with
  | Ok a => k a
  | Raise e => Raise e
  end.

#[global] Instance result_fmap : FMap result := fun A B f m =>
  match m with
  | Ok a => Ok (f a)
  | Raise e => Raise e
  end.

(** [range(n)] of a Python int: empty when [n <= 0]. *)
Definition py_range (n : Z) : list nat := seq 0 (Z.to_nat n).

(** The loop [for i in idx: s = body(i, s)]; an exception leaves it. *)
Fixpoint for_each {S : Type} (body : nat -> S -> result S)
    (idx : list nat) (s : S) : result S :=
  match idx with
  | [] => Ok s
  | i :: rest => s' ← body i s; for_each body rest s'
  end.

(** [xs[i]] on a Python list, for [i >= 0]. *)
Definition py_index {A} (xs : list A) (i : nat) : result A :=
  match xs !! i with
  | Some x => Ok x
  | None => Raise IndexError
  end.

(** Objects a module-level name can be bound to. *)
Inductive pyobj : Type :=
  | PyArray (a : ndarray)
  | PyFloat (x : xreal)
  | PyNone.

(** ** Ex 5.1: [solve_contact] *)

(** The state of the two loops: the impulse array [lam], and a ghost
    counter of how many times the body of the inner (per-contact) loop
    has run.  The counter is not part of the Python state. *)
Record pgs_state : Type := mk_pgs { pgs_lam : ndarray; pgs_visits : nat }.

(** The body of [for i in range(nc)]: a comment and [pass]. *)
Definition pgs_contact_body (i : nat) (s : pgs_state) : result pgs_state :=
  Ok (mk_pgs (pgs_lam s) (S (pgs_visits s))).

Definition pgs_sweep (nc : nat) (j : nat) (s : pgs_state) : result pgs_state :=
  for_each pgs_contact_body (seq 0 nc) s.

Definition solve_contact_run (G : rmatrix) (g : rvec) (mus : list R)
    (tol : R) (max_iter : Z) : result pgs_state :=
  let nc := length mus in
  let lam := np_zeros (3 * nc) in
  for_each (pgs_sweep nc) (py_range max_iter) (mk_pgs lam 0).

Definition solve_contact (G : rmatrix) (g : rvec) (mus : list R)
    (tol : R) (max_iter : Z) : result ndarray :=
  pgs_lam <$> solve_contact_run G g mus tol max_iter.

(** ** Ex 5.2: [solve_contact_ADMM_CCP] *)

(** The body is a docstring, a comment and [return lam].  [lam] is not
    assigned in the function, so the name is looked up in the module
    namespace at the time of the call. *)
Definition solve_contact_ADMM_CCP (globals : gmap string pyobj)
    (G : rmatrix) (g : rvec) (mus : list R) (rho : R) (max_iter : Z)
    : result pyobj :=
  match globals !! "lam"%string with
  | Some v => Ok v
  | None => Raise (NameError "lam")
  end.

(** ** The helper [SOC_projection] *)

(** One pass of the loop body on the block [(a, b, z)] of contact [i],
    with [mu = mus[i]]: the values written to [lam_proj[3i .. 3i+2]]. *)
Definition SOC_block (mu : R) (a b z : xreal) : xreal * xreal * xreal :=
  let norm := norm2 a b in
  if xgtb norm (xmul (Fin mu) z) then
    let x := norm in
    let len := norm2 (Fin mu) (Fin 1) in
    let e0 := xdiv (Fin mu) len in
    let e1 := xdiv (Fin 1) len in
    let d := xadd (xmul x e0) (xmul z e1) in
    let p0 := xmul d e0 in
    let p1 := xmul d e1 in
    let '(p0, p1) :=
      if xltb p1 (Fin 0) then (xmul p0 (Fin 0), xmul p1 (Fin 0))
      else (p0, p1) in
    (xdiv (xmul p0 a) norm, xdiv (xmul p0 b) norm, p1)
  else (a, b, z).

Definition SOC_body (lam : ndarray) (mus : list R) (i : nat)
    (lam_proj : ndarray) : result ndarray :=
  mu ← py_index mus i;
  let '(a', b', z') :=
    SOC_block mu (lam !!! (i * 3)%nat) (lam !!! (i * 3 + 1)%nat)
      (lam !!! (i * 3 + 2)%nat) in
  Ok (<[(i * 3 + 2)%nat := z']>
        (<[(i * 3 + 1)%nat := b']> (<[(i * 3)%nat := a']> lam_proj))).

Definition SOC_projection (lam : ndarray) (mus : list R) : result ndarray :=
  let nc := (length lam / 3)%nat in
  let lam_proj := np_zeros (length lam) in
  for_each (SOC_body lam mus) (seq 0 nc) lam_proj.

(** ** Ex 5.3: [compute_sig_residual] *)

(** [np.max]: raises on an empty array. *)
Definition np_amax (v : ndarray) : result xreal :=
  match v with
  | [] => Raise ValueError
  | x :: rest => Ok (foldl xmax x rest)
  end.

(** [np.linalg.norm(v, np.inf)] of a one-dimensional array. *)
Definition np_norm_inf (v : ndarray) : result xreal := np_amax (xabs <$> v).

(** The body of [for i in range(n_c)]: a comment and [pass]. *)
Definition sig_body (i : nat) (resid_vec : ndarray) : result ndarray :=
  Ok resid_vec.

Definition compute_sig_residual (lambda_n c_n c_n_star : ndarray)
    : result xreal :=
  let n_c := length lambda_n in
  let resid_vec := np_zeros (3 * n_c) in
  resid_vec ← for_each sig_body (seq 0 n_c) resid_vec;
  np_norm_inf resid_vec.

(** ** Notions of the specification *)

(** The friction cone [K_mu]: tangential norm at most [mu] times the
    normal component, and a non-negative normal component. *)
Definition in_cone (mu : R) (blk : xreal * xreal * xreal) : Prop :=
  let '(a, b, z) := blk in
  xleb (norm2 a b) (xmul (Fin mu) z) = true /\ xleb (Fin 0) z = true.

(** The [i]-th 3-block of a flat impulse vector. *)
Definition block (v : ndarray) (i : nat) : xreal * xreal * xreal :=
  (v !!! (i * 3)%nat, v !!! (i * 3 + 1)%nat, v !!! (i * 3 + 2)%nat).

Definition tangential_zero (blk : xreal * xreal * xreal) : Prop :=
  blk.1.1 = Fin 0 /\ blk.1.2 = Fin 0.

Definition dot (u v : rvec) : R := foldr Rplus 0 (zip_with Rmult u v).

Definition matvec (G : rmatrix) (x : rvec) : rvec :=
  (fun row => dot row x) <$> G.

Definition entry (G : rmatrix) (i j : nat) : R := nth j (nth i G []) 0.

Definition shape_is (G : rmatrix) (rows cols : nat) : Prop :=
  length G = rows /\ Forall (fun row => length row = cols) G.

Definition symmetric (G : rmatrix) : Prop :=
  forall i j : nat, entry G i j = entry G j i.

Definition psd (G : rmatrix) : Prop :=
  forall x : rvec, length x = length G -> 0 <= dot x (matvec G x).

(** [Nc = len(mus) = len(g)/3 = G.rows/3 = G.cols/3]. *)
Definition dims_agree (G : rmatrix) (g : rvec) (mus : list R) : Prop :=
  shape_is G (3 * length mus) (3 * length mus) /\
  length g = (3 * length mus)%nat.

Definition valid_problem (G : rmatrix) (g : rvec) (mus : list R)
    (max_iter : Z) : Prop :=
  dims_agree G g mus /\ symmetric G /\ psd G /\
  Forall (fun mu => 0 <= mu) mus /\ (1 <= max_iter)%Z.

(** The Signorini residual as the specification words it: per contact
    the three quantities [max(0, -lambda_N)], [max(0, -(c_N - c_N_star))] and
    [lambda_N (c_N - c_N_star)], flattened, in the infinity norm. *)
Definition sig_terms_spec (l c cs : R) : list R :=
  [Rmax 0 (- l); Rmax 0 (- (c - cs)); l * (c - cs)].

Fixpoint sig_vector_spec (lambda_n c_n c_n_star : rvec) : list R :=
  match lambda_n, c_n, c_n_star with
  | l :: ls, c :: cs, s :: ss =>
      sig_terms_spec l c s ++ sig_vector_spec ls cs ss
  | _, _, _ => []
  end.

Definition linf_norm (v : list R) : R := foldr Rmax 0 (Rabs <$> v).

Definition sig_residual_spec (lambda_n c_n c_n_star : rvec) : R :=
  linf_norm (sig_vector_spec lambda_n c_n c_n_star).

(** ** Auxiliary readings of the projection *)

(** Block-wise reading of [SOC_projection] on a vector of whole blocks:
    the list the index-based loop is shown to compute. *)
Fixpoint SOC_blocks (lam : ndarray) (mus : list R) : ndarray :=
  match lam, mus with
  | a :: b :: z :: rest, mu :: mus' =>
      let '(a', b', z') := SOC_block mu a b z in
      a' :: b' :: z' :: SOC_blocks rest mus'
  | _, _ => []
  end.

(** Real-valued readings of the quantities of one block: the tangential
    norm, the length of [(mu, 1)], and the coordinates of the point
    projected on the boundary ray. *)
Definition tnorm (a b : R) : R := sqrt (a * a + b * b).
Definition ray_len (mu : R) : R := sqrt (mu * mu + 1 * 1).
Definition ray_dot (mu a b z : R) : R :=
  tnorm a b * (mu / ray_len mu) + z * (1 / ray_len mu).
Definition ray_p0 (mu a b z : R) : R := ray_dot mu a b z * (mu / ray_len mu).
Definition ray_p1 (mu a b z : R) : R := ray_dot mu a b z * (1 / ray_len mu).

(** A block the projection handles: finite entries, a friction
    coefficient [>= 0], and not on the open negative normal axis. *)
Definition regular (mu : R) (blk : xreal * xreal * xreal) : Prop :=
  exists a b z : R,
    blk = (Fin a, Fin b, Fin z) /\ 0 <= mu /\ (tnorm a b <> 0 \/ 0 <= z).

Definition finite_block (blk : xreal * xreal * xreal) : Prop :=
  exists a b z : R, blk = (Fin a, Fin b, Fin z).

(** [P mu (a, b, z)] for each block of [v] and its coefficient, with as
    many blocks as coefficients. *)
Fixpoint blocks_all (P : R -> xreal * xreal * xreal -> Prop)
    (v : ndarray) (mus : list R) : Prop :=
  match v, mus with
  | [], [] => True
  | a :: b :: z :: rest, mu :: mus' => P mu (a, b, z) /\ blocks_all P rest mus'
  | _, _ => False
  end.

(** ** The simulation cells bind [lam] at module level *)

(** The statement [lam = solve_contact(Del, g, mus, tolerance, max_iter)]
    of the PGS simulation cells. *)
Definition assign_lam_pgs (globals : gmap string pyobj)
    (G : rmatrix) (g : rvec) (mus : list R) (tol : R) (max_iter : Z)
    : result (gmap string pyobj) :=
  lam ← solve_contact G g mus tol max_iter;
  Ok (<["lam"%string := PyArray lam]> globals).

(** The statement [lam = solve_contact_ADMM_CCP(Del, g, mus, rho)] of the
    CCP simulation cells. *)
Definition assign_lam_ccp (globals : gmap string pyobj)
    (G : rmatrix) (g : rvec) (mus : list R) (rho : R) (max_iter : Z)
    : result (gmap string pyobj) :=
  lam ← solve_contact_ADMM_CCP globals G g mus rho max_iter;
  Ok (<["lam"%string := lam]> globals).

(** ** Sample inputs *)

(** One contact: the 3 x 3 identity as Delassus matrix, a free velocity
    pointing into the surface. *)
Definition G_one : rmatrix := [[1; 0; 0]; [0; 1; 0]; [0; 0; 1]].
Definition g_one : rvec := [0; 0; -1].
Definition mus_one : list R := [1 / 2].

(** A module namespace in which no name [lam] is bound, and one in which
    an earlier cell has left the impulses of a four-contact problem. *)
Definition fresh_globals : gmap string pyobj := ∅.
Definition stale_globals : gmap string pyobj :=
  {[ "lam"%string := PyArray (np_zeros 12) ]}.

(** An impulse on the negative normal axis: no tangential part, normal
    component [-1]. *)
Definition lam_axis : ndarray := [Fin 0; Fin 0; Fin (-1)].

(** * Properties *)

(** ** Arithmetic on [xreal] at finite arguments *)

Lemma xltb_Fin_true (a b : R) : a < b -> xltb (Fin a) (Fin b) = true.
Proof. intros H; cbn; destruct (Rlt_dec a b); [reflexivity | contradiction]. Qed.

Lemma xltb_Fin_false (a b : R) : ~ a < b -> xltb (Fin a) (Fin b) = false.
Proof. intros H; cbn; destruct (Rlt_dec a b); [contradiction | reflexivity]. Qed.

Lemma xleb_Fin_true (a b : R) : a <= b -> xleb (Fin a) (Fin b) = true.
Proof. intros H; cbn; destruct (Rle_dec a b); [reflexivity | contradiction]. Qed.

Lemma xleb_Fin_inv (a b : R) : xleb (Fin a) (Fin b) = true -> a <= b.
Proof. cbn; destruct (Rle_dec a b); [trivial | discriminate]. Qed.

Lemma xdiv_Fin (a b : R) : b <> 0 -> xdiv (Fin a) (Fin b) = Fin (a / b).
Proof. intros H; cbn; destruct (Req_dec_T b 0); [contradiction | reflexivity]. Qed.

Lemma xdiv_zero_zero (a b : R) : a = 0 -> b = 0 -> xdiv (Fin a) (Fin b) = NaN.
Proof.
  intros Ha Hb; cbn.
  destruct (Req_dec_T b 0); [| contradiction].
  destruct (Req_dec_T a 0); [reflexivity | contradiction].
Qed.

Lemma xsqrt_Fin (a : R) : 0 <= a -> xsqrt (Fin a) = Fin (sqrt a).
Proof. intros H; cbn; destruct (Rlt_dec a 0); [lra | reflexivity]. Qed.

Lemma norm2_Fin (a b : R) : norm2 (Fin a) (Fin b) = Fin (sqrt (a * a + b * b)).
Proof. unfold norm2; cbn [xmul xadd]; apply xsqrt_Fin; nra. Qed.

Lemma norm2_NaN_l (b : xreal) : norm2 NaN b = NaN.
Proof. reflexivity. Qed.

Lemma xeq_NaN_l (y : xreal) : ~ xeq NaN y.
Proof. intros []. Qed.

Lemma np_zeros_length (n : nat) : length (np_zeros n) = n.
Proof. apply length_replicate. Qed.

(** ** The loops of the two stubs *)

Lemma for_each_pgs_body (idx : list nat) (s : pgs_state) :
  for_each pgs_contact_body idx s
  = Ok (mk_pgs (pgs_lam s) (length idx + pgs_visits s)).
Proof.
  revert s; induction idx as [| i idx IH]; intros [lam n]; cbn.
  - reflexivity.
  - rewrite IH; cbn; do 2 f_equal; lia.
Qed.

Lemma pgs_sweep_eq (nc j : nat) (s : pgs_state) :
  pgs_sweep nc j s = Ok (mk_pgs (pgs_lam s) (nc + pgs_visits s)).
Proof. unfold pgs_sweep; rewrite for_each_pgs_body, length_seq; reflexivity. Qed.

Lemma for_each_pgs_sweep (nc : nat) (idx : list nat) (s : pgs_state) :
  for_each (pgs_sweep nc) idx s
  = Ok (mk_pgs (pgs_lam s) (length idx * nc + pgs_visits s)).
Proof.
  revert s; induction idx as [| j idx IH]; intros [lam n]; cbn.
  - reflexivity.
  - rewrite pgs_sweep_eq; cbn.
    rewrite IH; cbn; do 2 f_equal; lia.
Qed.

Lemma solve_contact_run_eq G g mus tol max_iter :
  solve_contact_run G g mus tol max_iter
  = Ok (mk_pgs (np_zeros (3 * length mus))
               (Z.to_nat max_iter * length mus)).
Proof.
  unfold solve_contact_run, py_range.
  rewrite for_each_pgs_sweep, length_seq; cbn; do 2 f_equal; lia.
Qed.

Lemma solve_contact_eq G g mus tol max_iter :
  solve_contact G g mus tol max_iter = Ok (np_zeros (3 * length mus)).
Proof. unfold solve_contact; rewrite solve_contact_run_eq; reflexivity. Qed.

Lemma for_each_sig_body (idx : list nat) (v : ndarray) :
  for_each sig_body idx v = Ok v.
Proof. induction idx as [| i idx IH]; cbn; [reflexivity | exact IH]. Qed.

Lemma foldl_xmax_zeros (n : nat) :
  foldl xmax (Fin 0) (replicate n (Fin 0)) = Fin 0.
Proof.
  induction n as [| n IH]; cbn; [reflexivity |].
  destruct (Rlt_dec 0 0); exact IH.
Qed.

Lemma np_norm_inf_zeros (n : nat) :
  np_norm_inf (np_zeros (S n)) = Ok (Fin 0).
Proof.
  unfold np_norm_inf, np_zeros; cbn.
  rewrite fmap_replicate; cbn; rewrite Rabs_R0.
  f_equal; apply foldl_xmax_zeros.
Qed.

Lemma compute_sig_residual_eq (lambda_n c_n c_n_star : ndarray) :
  (1 <= length lambda_n)%nat ->
  compute_sig_residual lambda_n c_n c_n_star = Ok (Fin 0).
Proof.
  intros Hn; unfold compute_sig_residual.
  rewrite for_each_sig_body; cbn.
  destruct (length lambda_n) as [| n]; [lia |].
  replace (3 * S n)%nat with (S (3 * n + 2)) by lia.
  apply np_norm_inf_zeros.
Qed.


Lemma G_one_valid : valid_problem G_one g_one mus_one 100.
Proof.
  unfold valid_problem, dims_agree, shape_is, mus_one; repeat split.
  - repeat constructor.
  - intros i j.
    destruct i as [| [| [| i]]]; destruct j as [| [| [| j]]]; cbn;
      repeat match goal with
             | |- context [match ?n with O => _ | S _ => _ end] => destruct n
             end; reflexivity.
  - intros x Hx.
    destruct x as [| a [| b [| c [| d x]]]]; try discriminate.
    cbn; nra.
  - repeat constructor; lra.
  - lia.
Qed.

Section ADMM_stub.

Variables (G : rmatrix) (g : rvec) (mus : list R) (rho : R) (max_iter : Z).

(** The call returns exactly when [lam] is bound in the module, and then
    returns the bound object, whatever the arguments. *)
Lemma ADMM_returns_global (globals : gmap string pyobj) (v : pyobj) :
  solve_contact_ADMM_CCP globals G g mus rho max_iter = Ok v
  <-> globals !! "lam"%string = Some v.
Proof.
  unfold solve_contact_ADMM_CCP.
  destruct (globals !! "lam"%string) as [w |]; split; intros H;
    try discriminate; now inversion H.
Qed.

Lemma ADMM_unbound (globals : gmap string pyobj) :
  globals !! "lam"%string = None ->
  solve_contact_ADMM_CCP globals G g mus rho max_iter
  = Raise (NameError "lam").
Proof. unfold solve_contact_ADMM_CCP; now intros ->. Qed.

Lemma ADMM_fresh :
  solve_contact_ADMM_CCP fresh_globals G g mus rho max_iter
  = Raise (NameError "lam").
Proof. apply ADMM_unbound, lookup_empty. Qed.

Lemma ADMM_stale :
  solve_contact_ADMM_CCP stale_globals G g mus rho max_iter
  = Ok (PyArray (np_zeros 12)).
Proof. apply ADMM_returns_global, lookup_singleton_eq. Qed.

End ADMM_stub.

Lemma not_dims_agree_empty (mu : R) : ~ dims_agree [] [] [mu].
Proof. intros [[Hrows _] _]; cbn in Hrows; lia. Qed.

(** ** The stubs: [solve_contact] and [compute_sig_residual] *)

(** C2.  For every [G], [g], [mus], [tol] and every [max_iter >= 0],
    [solve_contact] returns the all-zero vector of length [3 * len(mus)];
    the returned value is the same whatever [G], [g], [tol] and
    [max_iter] are. *)
Theorem solve_contact_all_zero G g mus tol max_iter :
  (0 <= max_iter)%Z ->
  solve_contact G g mus tol max_iter = Ok (np_zeros (3 * length mus)) /\
  forall G' g' tol' max_iter',
    (0 <= max_iter')%Z ->
    solve_contact G' g' mus tol' max_iter'
    = solve_contact G g mus tol max_iter.
Proof.
  intros _; split.
  - apply solve_contact_eq.
  - intros G' g' tol' max_iter' _; now rewrite !solve_contact_eq.
Qed.

Lemma solve_contact_all_zero_witness :
  (0 <= 100)%Z /\
  solve_contact G_one g_one mus_one (1 / 1000000) 100 = Ok (np_zeros 3) /\
  forall G' g' tol' max_iter',
    (0 <= max_iter')%Z ->
    solve_contact G' g' mus_one tol' max_iter'
    = solve_contact G_one g_one mus_one (1 / 1000000) 100.
Proof.
  split; [lia |].
  apply (solve_contact_all_zero G_one g_one mus_one (1 / 1000000) 100); lia.
Defined.

(** C7.  For every call with [n_c = len(lambda_n) >= 1],
    [compute_sig_residual] returns exactly [0.0]: the residual vector it
    reduces is never written, so the result is the same for all values of
    [lambda_n], [c_n] and [c_n_star]. *)
Theorem compute_sig_residual_always_zero (lambda_n c_n c_n_star : ndarray) :
  (1 <= length lambda_n)%nat ->
  compute_sig_residual lambda_n c_n c_n_star = Ok (Fin 0) /\
  forall lambda_n' c_n' c_n_star' : ndarray,
    (1 <= length lambda_n')%nat ->
    compute_sig_residual lambda_n' c_n' c_n_star'
    = compute_sig_residual lambda_n c_n c_n_star.
Proof.
  intros Hn; split.
  - now apply compute_sig_residual_eq.
  - intros l' c' s' Hn'; now rewrite !compute_sig_residual_eq.
Qed.

Lemma compute_sig_residual_always_zero_witness :
  (1 <= length [Fin 3; Fin (-2)])%nat /\
  compute_sig_residual [Fin 3; Fin (-2)] [Fin 0; Fin 5] [Fin 0; Fin 0]
  = Ok (Fin 0) /\
  forall lambda_n' c_n' c_n_star' : ndarray,
    (1 <= length lambda_n')%nat ->
    compute_sig_residual lambda_n' c_n' c_n_star'
    = compute_sig_residual [Fin 3; Fin (-2)] [Fin 0; Fin 5] [Fin 0; Fin 0].
Proof.
  split; [cbn; lia |].
  apply (compute_sig_residual_always_zero
           [Fin 3; Fin (-2)] [Fin 0; Fin 5] [Fin 0; Fin 0]).
  cbn; lia.
Defined.

(** C6.  The claim: for equal-length sequences of length [n_c >= 1],
    [compute_sig_residual] equals the infinity norm of the flattened
    residuals [max(0, -lambda_N)], [max(0, -(c_N - c_N_star))] and
    [lambda_N (c_N - c_N_star)].  The code never writes the residual
    vector: for the single contact [lambda_N = -1], [c_N = c_N_star = 0]
    the specified residual is [1] and the code returns [0]. *)
Theorem compute_sig_residual_misses_negative_impulse :
  compute_sig_residual [Fin (-1)] [Fin 0] [Fin 0] = Ok (Fin 0) /\
  sig_residual_spec [-1] [0] [0] = 1 /\
  compute_sig_residual [Fin (-1)] [Fin 0] [Fin 0]
  <> Ok (Fin (sig_residual_spec [-1] [0] [0])).
Proof.
  assert (Hspec : sig_residual_spec [-1] [0] [0] = 1).
  { unfold sig_residual_spec, linf_norm; cbn.
    unfold Rmax, Rabs;
      repeat (destruct (Rle_dec _ _) || destruct (Rcase_abs _)); lra. }
  assert (Hcode : compute_sig_residual [Fin (-1)] [Fin 0] [Fin 0] = Ok (Fin 0)).
  { apply compute_sig_residual_eq; cbn; lia. }
  repeat split; [exact Hcode | exact Hspec |].
  rewrite Hcode, Hspec; intros [= H]; lra.
Qed.

(** ** The ADMM stub reads an unbound name *)

(** C1.  The claim: on every valid input both solvers return an impulse
    vector and neither raises.  [solve_contact] does; but
    [solve_contact_ADMM_CCP] returns a name it never assigns, and in a
    module where [lam] is unbound the call on the valid one-contact
    problem raises [NameError]. *)
Theorem ADMM_raises_on_valid_input :
  valid_problem G_one g_one mus_one 100 /\
  solve_contact G_one g_one mus_one (1 / 1000000) 100 = Ok (np_zeros 3) /\
  solve_contact_ADMM_CCP fresh_globals G_one g_one mus_one 10 100
  = Raise (NameError "lam").
Proof.
  split; [exact G_one_valid |]; split;
    [apply solve_contact_eq | apply ADMM_fresh].
Qed.

(** C8.  The claim: on valid inputs both solvers return a vector of
    length [3 Nc].  [solve_contact] does; [solve_contact_ADMM_CCP] on the
    valid one-contact problem returns no array when [lam] is unbound, and
    returns the twelve impulses left by an earlier cell when it is
    bound. *)
Theorem ADMM_length_not_three_Nc :
  valid_problem G_one g_one mus_one 100 /\
  (length <$> solve_contact G_one g_one mus_one (1 / 1000000) 100)
  = Ok (3 * length mus_one)%nat /\
  (forall a : ndarray,
     solve_contact_ADMM_CCP fresh_globals G_one g_one mus_one 10 100
     <> Ok (PyArray a)) /\
  exists a : ndarray,
    solve_contact_ADMM_CCP stale_globals G_one g_one mus_one 10 100
    = Ok (PyArray a) /\ length a <> (3 * length mus_one)%nat.
Proof.
  split; [exact G_one_valid |]; split; [| split].
  - rewrite solve_contact_eq; reflexivity.
  - intros a; rewrite ADMM_fresh; discriminate.
  - exists (np_zeros 12); split; [apply ADMM_stale | cbn; lia].
Qed.

(** C10.  The claim: with zero contacts both solvers return an empty
    impulse vector without any per-contact iteration.  [solve_contact]
    does (its inner body runs zero times); [solve_contact_ADMM_CCP]
    raises [NameError] when [lam] is unbound and returns the stale
    twelve-entry array when it is bound. *)
Theorem ADMM_zero_contacts_not_empty (tol rho : R) (max_iter : Z) :
  solve_contact [] [] [] tol max_iter = Ok [] /\
  (pgs_visits <$> solve_contact_run [] [] [] tol max_iter) = Ok 0%nat /\
  solve_contact_ADMM_CCP fresh_globals [] [] [] rho max_iter
  = Raise (NameError "lam") /\
  solve_contact_ADMM_CCP stale_globals [] [] [] rho max_iter
  = Ok (PyArray (np_zeros 12)).
Proof.
  repeat split.
  - apply solve_contact_eq.
  - rewrite solve_contact_run_eq; cbn; f_equal; lia.
Qed.

(** ** No validation of dimensions *)

(** C9, as stated: every input with mismatched dimensions makes both
    solvers fail.  Refuted: one friction coefficient with an empty [G]
    and [g] is accepted by [solve_contact]. *)
Lemma mismatch_not_rejected :
  ~ (forall (globals : gmap string pyobj) G g mus tol rho max_iter,
       ~ dims_agree G g mus ->
       (exists e, solve_contact G g mus tol max_iter = Raise e) /\
       (exists e,
          solve_contact_ADMM_CCP globals G g mus rho max_iter = Raise e)).
Proof.
  intros H.
  destruct (H fresh_globals [] [] [1 / 2] 0 10 100%Z
              (not_dims_agree_empty _)) as [[e He] _].
  rewrite solve_contact_eq in He; discriminate.
Qed.

(** C9, amended.  Neither solver validates dimensions: on every input
    with mismatched dimensions [solve_contact] returns normally, with the
    zero vector of length [3 * len(mus)], and the outcome of
    [solve_contact_ADMM_CCP] is what it is for any other arguments in the
    same module namespace. *)
Theorem mismatch_tolerated (globals : gmap string pyobj) G g mus tol rho
    max_iter :
  ~ dims_agree G g mus ->
  solve_contact G g mus tol max_iter = Ok (np_zeros (3 * length mus)) /\
  forall G' g' mus' rho' max_iter',
    solve_contact_ADMM_CCP globals G g mus rho max_iter
    = solve_contact_ADMM_CCP globals G' g' mus' rho' max_iter'.
Proof.
  intros _; split; [apply solve_contact_eq | reflexivity].
Qed.

Lemma mismatch_tolerated_witness :
  ~ dims_agree [] [] [1 / 2] /\
  solve_contact [] [] [1 / 2] 0 100 = Ok (np_zeros 3) /\
  forall G' g' mus' rho' max_iter',
    solve_contact_ADMM_CCP fresh_globals [] [] [1 / 2] 10 100
    = solve_contact_ADMM_CCP fresh_globals G' g' mus' rho' max_iter'.
Proof.
  split; [apply not_dims_agree_empty |].
  apply (mismatch_tolerated fresh_globals [] [] [1 / 2] 0 10 100).
  apply not_dims_agree_empty.
Defined.

(** ** One block of the cone projection *)

Lemma tnorm_nonneg (a b : R) : 0 <= tnorm a b.
Proof. apply sqrt_pos. Qed.

Lemma tnorm_sqr (a b : R) : tnorm a b * tnorm a b = a * a + b * b.
Proof. apply sqrt_sqrt; nra. Qed.

Lemma tnorm_zero (a b : R) : tnorm a b = 0 -> a = 0 /\ b = 0.
Proof.
  intros H; pose proof (tnorm_sqr a b) as Hs; rewrite H in Hs.
  split; nra.
Qed.

Lemma tnorm_0_0 : tnorm 0 0 = 0.
Proof. unfold tnorm; replace (0 * 0 + 0 * 0) with 0 by ring; apply sqrt_0. Qed.

Lemma ray_len_pos (mu : R) : 0 < ray_len mu.
Proof. apply sqrt_lt_R0; nra. Qed.

Lemma ray_p0_p1 (mu a b z : R) : ray_p0 mu a b z = mu * ray_p1 mu a b z.
Proof.
  unfold ray_p0, ray_p1; pose proof (ray_len_pos mu); field; lra.
Qed.

Lemma xleb_xltb (x y : xreal) : xleb x y = true -> xltb y x = false.
Proof.
  destruct x as [a | [] |], y as [b | [] |]; cbn; try (discriminate || reflexivity).
  destruct (Rle_dec a b), (Rlt_dec b a); (discriminate || reflexivity || lra).
Qed.

(** The [else] branch: the block is copied, whatever its entries. *)
Lemma SOC_block_copy (mu : R) (a b z : xreal) :
  xgtb (norm2 a b) (xmul (Fin mu) z) = false ->
  SOC_block mu a b z = (a, b, z).
Proof. intros H; unfold SOC_block; rewrite H; reflexivity. Qed.

Lemma SOC_block_in_cone_fixed (mu : R) (a b z : xreal) :
  in_cone mu (a, b, z) -> SOC_block mu a b z = (a, b, z).
Proof. intros [H _]; apply SOC_block_copy, xleb_xltb, H. Qed.

(** The [if] branch on a finite block with a tangential part. *)
Lemma SOC_block_project (mu a b z : R) :
  mu * z < tnorm a b -> tnorm a b <> 0 ->
  SOC_block mu (Fin a) (Fin b) (Fin z)
  = if Rlt_dec (ray_p1 mu a b z) 0
    then (Fin (ray_p0 mu a b z * 0 * a / tnorm a b),
          Fin (ray_p0 mu a b z * 0 * b / tnorm a b),
          Fin (ray_p1 mu a b z * 0))
    else (Fin (ray_p0 mu a b z * a / tnorm a b),
          Fin (ray_p0 mu a b z * b / tnorm a b),
          Fin (ray_p1 mu a b z)).
Proof.
  intros Hlt Hn; pose proof (ray_len_pos mu) as HL.
  unfold SOC_block; rewrite !norm2_Fin; fold (tnorm a b) (ray_len mu).
  cbn [xmul]; unfold xgtb; rewrite xltb_Fin_true by exact Hlt.
  rewrite !xdiv_Fin by lra; cbn [xmul xadd].
  fold (ray_dot mu a b z) (ray_p0 mu a b z) (ray_p1 mu a b z).
  cbn [xltb]; destruct (Rlt_dec (ray_p1 mu a b z) 0);
    cbn [xmul]; rewrite !xdiv_Fin by exact Hn; reflexivity.
Qed.

(** The [if] branch on the negative normal axis: [0/0]. *)
Lemma SOC_block_negative_axis (mu z : R) :
  0 < mu -> z < 0 ->
  SOC_block mu (Fin 0) (Fin 0) (Fin z) = (NaN, NaN, Fin 0).
Proof.
  intros Hmu Hz; pose proof (ray_len_pos mu) as HL.
  assert (Hp1 : ray_p1 mu 0 0 z < 0).
  { unfold ray_p1, ray_dot; rewrite tnorm_0_0.
    replace (0 * (mu / ray_len mu) + z * (1 / ray_len mu))
      with (z * / ray_len mu) by (field; lra).
    pose proof (Rinv_0_lt_compat _ HL).
    replace (1 / ray_len mu) with (/ ray_len mu) by (field; lra).
    assert (z * / ray_len mu < 0) by nra; nra. }
  unfold SOC_block; rewrite !norm2_Fin; fold (tnorm 0 0) (ray_len mu).
  cbn [xmul]; unfold xgtb; rewrite xltb_Fin_true by (rewrite tnorm_0_0; nra).
  rewrite !xdiv_Fin by lra; cbn [xmul xadd].
  fold (ray_dot mu 0 0 z) (ray_p0 mu 0 0 z) (ray_p1 mu 0 0 z).
  rewrite xltb_Fin_true by exact Hp1; cbn [xmul].
  rewrite !xdiv_zero_zero by (ring || apply tnorm_0_0).
  do 2 f_equal; ring.
Qed.

(** With [mu = 0] the negative normal axis is copied. *)
Lemma SOC_block_frictionless_axis (z : R) :
  SOC_block 0 (Fin 0) (Fin 0) (Fin z) = (Fin 0, Fin 0, Fin z).
Proof.
  apply SOC_block_copy; rewrite norm2_Fin; fold (tnorm 0 0).
  cbn [xmul]; unfold xgtb; apply xltb_Fin_false; rewrite tnorm_0_0; lra.
Qed.

Lemma in_cone_Fin (mu a b z : R) :
  tnorm a b <= mu * z -> 0 <= z -> in_cone mu (Fin a, Fin b, Fin z).
Proof.
  intros H1 H2; unfold in_cone; rewrite norm2_Fin; fold (tnorm a b).
  cbn [xmul]; split; apply xleb_Fin_true; assumption.
Qed.

Lemma tnorm_scaled (p a b : R) :
  0 <= p -> tnorm a b <> 0 ->
  tnorm (p * a / tnorm a b) (p * b / tnorm a b) = p.
Proof.
  intros Hp Hn; pose proof (tnorm_sqr a b) as Hs.
  unfold tnorm at 1; set (n := tnorm a b) in *.
  replace (p * a / n * (p * a / n) + p * b / n * (p * b / n))
    with (p * p * (a * a + b * b) / (n * n)) by (field; exact Hn).
  rewrite <- Hs.
  replace (p * p * (n * n) / (n * n)) with (p * p) by (field; exact Hn).
  apply sqrt_square, Hp.
Qed.

(** Off the negative normal axis the block written by the loop is finite
    and lies in the friction cone. *)
Lemma SOC_block_regular (mu : R) (blk : xreal * xreal * xreal) :
  regular mu blk ->
  exists a' b' z' : R,
    SOC_block mu blk.1.1 blk.1.2 blk.2 = (Fin a', Fin b', Fin z') /\
    in_cone mu (Fin a', Fin b', Fin z').
Proof.
  intros (a & b & z & -> & Hmu & Hreg); cbn [fst snd].
  pose proof (tnorm_nonneg a b) as Hn0.
  destruct (Rlt_dec (mu * z) (tnorm a b)) as [Hlt | Hge].
  - assert (Hn : tnorm a b <> 0) by (destruct Hreg; [assumption | nra]).
    rewrite SOC_block_project by assumption.
    pose proof (ray_p0_p1 mu a b z) as Hp.
    destruct (Rlt_dec (ray_p1 mu a b z) 0) as [Hneg | Hpos].
    + do 3 eexists; split; [reflexivity |].
      apply in_cone_Fin; [| nra].
      rewrite tnorm_scaled by (nra || assumption); nra.
    + do 3 eexists; split; [reflexivity |].
      apply in_cone_Fin; [| lra].
      rewrite tnorm_scaled by (nra || assumption); lra.
  - rewrite SOC_block_copy.
    + do 3 eexists; split; [reflexivity |].
      apply in_cone_Fin; [lra |].
      destruct Hreg; [nra | assumption].
    + rewrite norm2_Fin; cbn [xmul]; unfold xgtb.
      apply xltb_Fin_false; exact Hge.
Qed.

(** A second pass over the block written by the first returns that block
    again, on the negative normal axis too; there the block holds NaN. *)
Lemma SOC_block_twice (mu a b z : R) :
  0 <= mu ->
  SOC_block mu (SOC_block mu (Fin a) (Fin b) (Fin z)).1.1
    (SOC_block mu (Fin a) (Fin b) (Fin z)).1.2
    (SOC_block mu (Fin a) (Fin b) (Fin z)).2
  = SOC_block mu (Fin a) (Fin b) (Fin z).
Proof.
  intros Hmu.
  destruct (Req_dec_T (tnorm a b) 0) as [Hn | Hn];
    [destruct (Rle_dec 0 z) as [Hz | Hz] |].
  2: { destruct (tnorm_zero a b Hn) as [-> ->].
       destruct (Req_dec_T mu 0) as [-> | Hmu0].
       - rewrite SOC_block_frictionless_axis; cbn [fst snd].
         apply SOC_block_frictionless_axis.
       - rewrite SOC_block_negative_axis by lra; cbn [fst snd].
         now apply SOC_block_copy. }
  all: destruct (SOC_block_regular mu (Fin a, Fin b, Fin z))
         as (a' & b' & z' & E & Hc);
       [exists a, b, z; repeat split; auto |];
       cbn [fst snd] in E; rewrite E; cbn [fst snd];
       apply SOC_block_in_cone_fixed, Hc.
Qed.

(** ** The index-based loop computes the block-wise list *)

Lemma SOC_body_step (pre rest : ndarray) (mpre mrest : list R)
    (done tail : ndarray) (k : nat) (mu : R) (a b z x0 x1 x2 : xreal) :
  length pre = (k * 3)%nat -> length mpre = k ->
  length done = (k * 3)%nat ->
  SOC_body (pre ++ a :: b :: z :: rest) (mpre ++ mu :: mrest) k
    (done ++ x0 :: x1 :: x2 :: tail)
  = Ok (done ++ (SOC_block mu a b z).1.1 :: (SOC_block mu a b z).1.2
               :: (SOC_block mu a b z).2 :: tail).
Proof.
  intros Hpre Hmpre Hdone; unfold SOC_body, py_index.
  rewrite list_lookup_middle by (symmetry; exact Hmpre); cbn [mbind result_bind].
  rewrite !lookup_total_app_r by lia.
  replace (k * 3 - length pre)%nat with 0%nat by lia.
  replace (k * 3 + 1 - length pre)%nat with 1%nat by lia.
  replace (k * 3 + 2 - length pre)%nat with 2%nat by lia.
  cbn [lookup_total list_lookup_total].
  destruct (SOC_block mu a b z) as [[a' b'] z']; cbn [fst snd].
  rewrite !insert_app_r_alt by lia.
  replace (k * 3 - length done)%nat with 0%nat by lia.
  replace (k * 3 + 1 - length done)%nat with 1%nat by lia.
  replace (k * 3 + 2 - length done)%nat with 2%nat by lia.
  reflexivity.
Qed.

Lemma SOC_blocks_cons (mu : R) (mus : list R) (a b z : xreal) (rest : ndarray) :
  SOC_blocks (a :: b :: z :: rest) (mu :: mus)
  = (SOC_block mu a b z).1.1 :: (SOC_block mu a b z).1.2
      :: (SOC_block mu a b z).2 :: SOC_blocks rest mus.
Proof. cbn [SOC_blocks]; destruct (SOC_block mu a b z) as [[a' b'] z']; reflexivity. Qed.

Lemma SOC_loop (lam : ndarray) (mus : list R) (mrest : list R) :
  forall (rest pre : ndarray) (mpre : list R) (done : ndarray) (k : nat),
    lam = pre ++ rest -> mus = mpre ++ mrest ->
    length pre = (k * 3)%nat -> length mpre = k ->
    length done = (k * 3)%nat ->
    length rest = (3 * length mrest)%nat ->
    for_each (SOC_body lam mus) (seq k (length mrest))
      (done ++ np_zeros (length rest))
    = Ok (done ++ SOC_blocks rest mrest).
Proof.
  induction mrest as [| mu mrest IH];
    intros rest pre mpre done k Hlam Hmus Hpre Hmpre Hdone Hrest.
  - destruct rest; [reflexivity | discriminate].
  - destruct rest as [| a [| b [| z rest]]]; try (cbn in Hrest; lia).
    cbn [length seq for_each np_zeros replicate]; subst lam mus.
    fold (np_zeros (length rest)).
    rewrite SOC_body_step by assumption; cbn [mbind result_bind].
    rewrite SOC_blocks_cons.
    set (blk := SOC_block mu a b z).
    specialize (IH rest (pre ++ [a; b; z]) (mpre ++ [mu])
                  (done ++ [blk.1.1; blk.1.2; blk.2]) (S k)).
    rewrite <- !app_assoc in IH; cbn [app] in IH.
    apply IH; try reflexivity; rewrite ?length_app; cbn [length] in *; lia.
Qed.

Lemma SOC_projection_eq_blocks (lam : ndarray) (mus : list R) :
  length lam = (3 * length mus)%nat ->
  SOC_projection lam mus = Ok (SOC_blocks lam mus).
Proof.
  intros Hlen; unfold SOC_projection.
  replace (length lam / 3)%nat with (length mus)
    by (rewrite Hlen, Nat.mul_comm, Nat.div_mul; lia).
  exact (SOC_loop lam mus mus lam [] [] [] 0 eq_refl eq_refl eq_refl eq_refl
           eq_refl Hlen).
Qed.

(** ** The projection on whole vectors *)

Ltac blocks_inv v H :=
  destruct v as [| ? [| ? [| ? v]]]; cbn [blocks_all] in H |- *;
  try contradiction.

Lemma blocks_all_length P (v : ndarray) (mus : list R) :
  blocks_all P v mus -> length v = (3 * length mus)%nat.
Proof.
  revert v; induction mus as [| mu mus IH]; intros v H.
  - blocks_inv v H; reflexivity.
  - blocks_inv v H.
    destruct H as [_ H]; apply IH in H; cbn [length]; lia.
Qed.

Lemma blocks_all_impl (P Q : R -> xreal * xreal * xreal -> Prop)
    (v : ndarray) (mus : list R) :
  (forall mu blk, P mu blk -> Q mu blk) ->
  blocks_all P v mus -> blocks_all Q v mus.
Proof.
  intros HPQ; revert v; induction mus as [| mu mus IH]; intros v H.
  - blocks_inv v H; exact I.
  - blocks_inv v H.
    destruct H as [H1 H2]; split; [apply HPQ, H1 | apply IH, H2].
Qed.

Lemma SOC_blocks_regular (lam : ndarray) (mus : list R) :
  blocks_all regular lam mus ->
  blocks_all (fun mu blk => finite_block blk /\ in_cone mu blk)
    (SOC_blocks lam mus) mus.
Proof.
  revert lam; induction mus as [| mu mus IH]; intros lam H.
  - blocks_inv lam H; exact I.
  - destruct lam as [| a [| b [| z lam]]]; cbn [blocks_all] in H;
      try contradiction.
    destruct H as [H1 H2]; rewrite SOC_blocks_cons.
    destruct (SOC_block_regular mu (a, b, z) H1) as (a' & b' & z' & E & Hc).
    cbn [fst snd] in E; rewrite E; cbn [fst snd blocks_all].
    split; [split; [now exists a', b', z' | exact Hc] | apply IH, H2].
Qed.

Lemma SOC_blocks_fixed (lam : ndarray) (mus : list R) :
  blocks_all in_cone lam mus -> SOC_blocks lam mus = lam.
Proof.
  revert lam; induction mus as [| mu mus IH]; intros lam H.
  - blocks_inv lam H; reflexivity.
  - destruct lam as [| a [| b [| z lam]]]; cbn [blocks_all] in H;
      try contradiction.
    destruct H as [H1 H2]; rewrite SOC_blocks_cons.
    rewrite (SOC_block_in_cone_fixed _ _ _ _ H1), (IH _ H2); reflexivity.
Qed.

Lemma array_equal_finite (v : ndarray) (mus : list R) :
  blocks_all (fun _ blk => finite_block blk) v mus -> array_equal v v.
Proof.
  revert v; induction mus as [| mu mus IH]; intros v H.
  - blocks_inv v H; constructor.
  - blocks_inv v H.
    destruct H as [(a' & b' & z' & [= -> -> ->]) H2].
    repeat (constructor; [reflexivity |]); apply IH, H2.
Qed.

(** Off the negative normal axis, every block of the result is finite
    and lies in its friction cone. *)
Theorem SOC_projection_in_cone (lam : ndarray) (mus : list R) :
  blocks_all regular lam mus ->
  exists out : ndarray,
    SOC_projection lam mus = Ok out /\
    blocks_all (fun mu blk => finite_block blk /\ in_cone mu blk) out mus.
Proof.
  intros H; exists (SOC_blocks lam mus); split.
  - apply SOC_projection_eq_blocks, (blocks_all_length _ _ _ H).
  - apply SOC_blocks_regular, H.
Qed.

(** An impulse whose blocks all lie in their cones is returned
    unchanged. *)
Theorem SOC_projection_fixed (lam : ndarray) (mus : list R) :
  blocks_all in_cone lam mus -> SOC_projection lam mus = Ok lam.
Proof.
  intros H; rewrite SOC_projection_eq_blocks
    by apply (blocks_all_length _ _ _ H).
  f_equal; apply SOC_blocks_fixed, H.
Qed.

(** Off the negative normal axis, projecting twice is projecting once. *)
Theorem SOC_projection_idempotent (lam : ndarray) (mus : list R) :
  blocks_all regular lam mus ->
  exists out out2 : ndarray,
    SOC_projection lam mus = Ok out /\
    SOC_projection out mus = Ok out2 /\
    array_equal out2 out.
Proof.
  intros H; destruct (SOC_projection_in_cone lam mus H) as (out & E & Hout).
  exists out, out; split; [exact E |]; split.
  - apply SOC_projection_fixed.
    revert Hout; apply blocks_all_impl; tauto.
  - apply (array_equal_finite out mus).
    revert Hout; apply blocks_all_impl; tauto.
Qed.

Lemma SOC_projection_axis_mu0 : SOC_projection lam_axis [0] = Ok lam_axis.
Proof.
  rewrite SOC_projection_eq_blocks by reflexivity.
  unfold lam_axis; rewrite SOC_blocks_cons, SOC_block_frictionless_axis.
  reflexivity.
Qed.

Lemma SOC_projection_axis_NaN :
  SOC_projection lam_axis mus_one = Ok [NaN; NaN; Fin 0].
Proof.
  rewrite SOC_projection_eq_blocks by reflexivity.
  unfold lam_axis, mus_one; rewrite SOC_blocks_cons.
  rewrite SOC_block_negative_axis by lra; reflexivity.
Qed.

Lemma SOC_projection_NaN_again :
  SOC_projection [NaN; NaN; Fin 0] mus_one = Ok [NaN; NaN; Fin 0].
Proof.
  rewrite SOC_projection_eq_blocks by reflexivity.
  unfold mus_one; rewrite SOC_blocks_cons, SOC_block_copy; reflexivity.
Qed.

(** C3.  The claim: for every [lam] and every [mus >= 0] each block of
    [SOC_projection(lam, mus)] lies in its friction cone, with a normal
    component [>= 0].  On the impulse [(0, 0, -1)] the code returns the
    block unchanged when [mu = 0] (normal component [-1]) and returns
    [(NaN, NaN, 0)] when [mu = 1/2]; neither block is in the cone. *)
Theorem SOC_projection_leaves_cone :
  SOC_projection lam_axis [0] = Ok lam_axis /\
  ~ in_cone 0 (block lam_axis 0) /\
  SOC_projection lam_axis mus_one = Ok [NaN; NaN; Fin 0] /\
  ~ in_cone (1 / 2) (block [NaN; NaN; Fin 0] 0).
Proof.
  split; [exact SOC_projection_axis_mu0 |]; split; [| split].
  - intros [_ H]; apply xleb_Fin_inv in H; lra.
  - exact SOC_projection_axis_NaN.
  - intros [H _]; discriminate H.
Qed.

(** C4.  The claim: a block with zero tangential components is mapped to
    a block with zero tangential components, the division by the
    tangential norm being guarded.  The code divides unguarded: the
    impulse [(0, 0, -1)] with [mu = 1/2] takes the [if] branch with
    [norm = 0], and both tangential components come out as [0/0 = NaN]. *)
Theorem SOC_projection_unguarded_division :
  tangential_zero (block lam_axis 0) /\
  exists out : ndarray,
    SOC_projection lam_axis mus_one = Ok out /\
    block out 0 = (NaN, NaN, Fin 0) /\
    ~ tangential_zero (block out 0).
Proof.
  split; [split; reflexivity |].
  exists [NaN; NaN; Fin 0]; split; [exact SOC_projection_axis_NaN |].
  split; [reflexivity |].
  intros [H _]; discriminate H.
Qed.

(** C5.  The claim: projecting twice equals projecting once, for every
    [lam] and every [mus >= 0], and a feasible impulse is unchanged.  The
    second half holds ([SOC_projection_fixed]), and so does the first off
    the negative normal axis ([SOC_projection_idempotent]); but for the
    impulse [(0, 0, -1)] with [mu = 1/2] both projections are
    [(NaN, NaN, 0)], which is equal to no array, itself included. *)
Theorem SOC_projection_twice_not_equal :
  exists out out2 : ndarray,
    SOC_projection lam_axis mus_one = Ok out /\
    SOC_projection out mus_one = Ok out2 /\
    out2 = [NaN; NaN; Fin 0] /\
    ~ array_equal out2 out.
Proof.
  exists [NaN; NaN; Fin 0], [NaN; NaN; Fin 0].
  split; [exact SOC_projection_axis_NaN |].
  split; [exact SOC_projection_NaN_again |].
  split; [reflexivity |].
  intros H; inversion H as [| x y u v Hxy _]; exact (xeq_NaN_l _ Hxy).
Qed.

(** * Further properties of the code *)

(** ** [SOC_projection] on arbitrary lengths *)

Lemma for_each_app {S : Type} (body : nat -> S -> result S)
    (idx1 idx2 : list nat) (s : S) :
  for_each body (idx1 ++ idx2) s
  = s' ← for_each body idx1 s; for_each body idx2 s'.
Proof.
  revert s; induction idx1 as [| i idx1 IH]; intros s; cbn; [reflexivity |].
  destruct (body i s) as [s' | e]; cbn; [apply IH | reflexivity].
Qed.

Lemma SOC_blocks_length (lam : ndarray) (mus : list R) :
  length lam = (3 * length mus)%nat ->
  length (SOC_blocks lam mus) = length lam.
Proof.
  revert lam; induction mus as [| mu mus IH]; intros lam H.
  - destruct lam; [reflexivity | discriminate].
  - destruct lam as [| a [| b [| z lam]]]; try (cbn in H; lia).
    rewrite SOC_blocks_cons; cbn [length] in *; rewrite IH; lia.
Qed.

Lemma SOC_blocks_app (lam1 lam2 : ndarray) (mus1 mus2 : list R) :
  length lam1 = (3 * length mus1)%nat ->
  SOC_blocks (lam1 ++ lam2) (mus1 ++ mus2)
  = SOC_blocks lam1 mus1 ++ SOC_blocks lam2 mus2.
Proof.
  revert lam1; induction mus1 as [| mu mus1 IH]; intros lam1 H.
  - destruct lam1; [reflexivity | discriminate].
  - destruct lam1 as [| a [| b [| z lam1]]]; try (cbn in H; lia).
    cbn [app]; rewrite !SOC_blocks_cons, IH by (cbn [length] in H; lia).
    reflexivity.
Qed.

Lemma SOC_blocks_short (lam : ndarray) (mus : list R) :
  (length lam < 3)%nat -> SOC_blocks lam mus = [].
Proof.
  intros H; destruct lam as [| a [| b [| z lam]]];
    try reflexivity; cbn in H; lia.
Qed.

(** The loop from contact [k] on, with unread entries behind the blocks
    still to visit. *)
Lemma SOC_loop_gen (lam : ndarray) (mus : list R) (mrest : list R) :
  forall (rest pre ltail : ndarray) (mpre mtail : list R)
         (done stail : ndarray) (k : nat),
    lam = pre ++ rest ++ ltail -> mus = mpre ++ mrest ++ mtail ->
    length pre = (k * 3)%nat -> length mpre = k ->
    length done = (k * 3)%nat ->
    length rest = (3 * length mrest)%nat ->
    for_each (SOC_body lam mus) (seq k (length mrest))
      (done ++ np_zeros (length rest) ++ stail)
    = Ok (done ++ SOC_blocks rest mrest ++ stail).
Proof.
  induction mrest as [| mu mrest IH];
    intros rest pre ltail mpre mtail done stail k
           Hlam Hmus Hpre Hmpre Hdone Hrest.
  - destruct rest; [reflexivity | discriminate].
  - destruct rest as [| a [| b [| z rest]]]; try (cbn in Hrest; lia).
    cbn [length seq for_each np_zeros replicate app]; subst lam mus.
    fold (np_zeros (length rest)).
    cbn [app]; rewrite SOC_body_step by assumption; cbn [mbind result_bind].
    rewrite SOC_blocks_cons.
    set (blk := SOC_block mu a b z).
    specialize (IH rest (pre ++ [a; b; z]) ltail (mpre ++ [mu]) mtail
                  (done ++ [blk.1.1; blk.1.2; blk.2]) stail (S k)).
    rewrite <- !app_assoc in IH; cbn [app] in IH.
    apply IH; try reflexivity; rewrite ?length_app; cbn [length] in *; lia.
Qed.

(** With a coefficient for each whole block the call returns: the blocks
    are projected and the entries after the last whole block are zero. *)
Lemma SOC_projection_general (lam : ndarray) (mus : list R) :
  (length lam / 3 <= length mus)%nat ->
  SOC_projection lam mus
  = Ok (SOC_blocks (take (3 * (length lam / 3)) lam)
          (take (length lam / 3) mus)
        ++ np_zeros (length lam mod 3)).
Proof.
  intros Hnc; unfold SOC_projection.
  set (nc := (length lam / 3)%nat) in *.
  pose proof (Nat.div_mod_eq (length lam) 3) as Hdm; fold nc in Hdm.
  assert (Hz : np_zeros (length lam)
               = [] ++ np_zeros (length (take (3 * nc) lam))
                    ++ np_zeros (length lam mod 3)).
  { unfold np_zeros; cbn [app]; rewrite <- replicate_add.
    f_equal; rewrite length_take; lia. }
  rewrite Hz.
  replace nc with (length (take nc mus)) at 1 by (rewrite length_take; lia).
  apply (SOC_loop_gen lam mus (take nc mus) (take (3 * nc) lam) []
           (drop (3 * nc) lam) [] (drop nc mus) [] _ 0%nat).
  - cbn [app]; symmetry; apply take_drop.
  - cbn [app]; symmetry; apply take_drop.
  - reflexivity.
  - reflexivity.
  - reflexivity.
  - rewrite !length_take; lia.
Qed.

Lemma SOC_body_no_coefficient (lam : ndarray) (mus : list R) (i : nat)
    (lam_proj : ndarray) :
  (length mus <= i)%nat -> SOC_body lam mus i lam_proj = Raise IndexError.
Proof.
  intros H; unfold SOC_body, py_index.
  rewrite (lookup_ge_None_2 mus i) by exact H; reflexivity.
Qed.

(** With too few coefficients the loop reaches [mus[len(mus)]]. *)
Lemma SOC_projection_short_mus (lam : ndarray) (mus : list R) :
  (length mus < length lam / 3)%nat ->
  SOC_projection lam mus = Raise IndexError.
Proof.
  intros Hnc; unfold SOC_projection.
  set (nc := (length lam / 3)%nat) in *.
  pose proof (Nat.div_mod_eq (length lam) 3) as Hdm; fold nc in Hdm.
  set (m := length mus) in *.
  replace nc with (m + S (nc - m - 1))%nat by lia.
  rewrite seq_app, for_each_app.
  assert (Hz : np_zeros (length lam)
               = [] ++ np_zeros (length (take (3 * m) lam))
                    ++ np_zeros (length lam - 3 * m)).
  { unfold np_zeros; cbn [app]; rewrite <- replicate_add.
    f_equal; rewrite length_take; lia. }
  rewrite Hz; unfold m at 1.
  rewrite (SOC_loop_gen lam mus mus (take (3 * m) lam) []
             (drop (3 * m) lam) [] [] [] _ 0%nat);
    try reflexivity.
  - cbn [mbind result_bind seq for_each Nat.add].
    rewrite SOC_body_no_coefficient by (unfold m; lia); reflexivity.
  - cbn [app]; symmetry; apply take_drop.
  - now rewrite app_nil_r.
  - rewrite length_take; unfold m in *; lia.
Qed.

Lemma SOC_projection_tail_eq (lam tail : ndarray) (mus extra : list R) :
  length lam = (3 * length mus)%nat -> (length tail < 3)%nat ->
  SOC_projection (lam ++ tail) (mus ++ extra)
  = Ok (SOC_blocks lam mus ++ np_zeros (length tail)).
Proof.
  intros Hlen Htail.
  assert (Hd : (length (lam ++ tail) / 3 = length mus)%nat).
  { rewrite length_app, Hlen; symmetry.
    apply (Nat.div_unique _ 3 _ (length tail)); lia. }
  assert (Hm : (length (lam ++ tail) mod 3 = length tail)%nat).
  { rewrite length_app, Hlen; symmetry.
    apply (Nat.mod_unique _ 3 (length mus)); lia. }
  rewrite SOC_projection_general by (rewrite Hd, length_app; lia).
  rewrite Hd, Hm, take_app_length', take_app_length' by auto.
  reflexivity.
Qed.

(** X1.  [SOC_projection] has two outcomes: an array as long as its
    input, when [mus] has a coefficient for each whole block of three
    entries; or [IndexError], when it has fewer. *)
Theorem SOC_projection_outcome (lam : ndarray) (mus : list R) :
  match SOC_projection lam mus with
  | Ok out => length out = length lam /\ (length lam / 3 <= length mus)%nat
  | Raise e => e = IndexError /\ (length mus < length lam / 3)%nat
  end.
Proof.
  destruct (le_lt_dec (length lam / 3) (length mus)) as [Hle | Hlt].
  - rewrite SOC_projection_general by exact Hle.
    split; [| exact Hle].
    pose proof (Nat.div_mod_eq (length lam) 3) as Hdm.
    rewrite length_app, np_zeros_length, SOC_blocks_length;
      rewrite !length_take; lia.
  - rewrite SOC_projection_short_mus by exact Hlt; split; [reflexivity | lia].
Qed.

(** X2.  Entries after the last whole block are not copied: they come
    back as zeros, whatever they hold. *)
Theorem SOC_projection_zeroes_partial_block (lam tail : ndarray)
    (mus : list R) :
  length lam = (3 * length mus)%nat -> (length tail < 3)%nat ->
  SOC_projection (lam ++ tail) mus
  = (fun out => out ++ np_zeros (length tail)) <$> SOC_projection lam mus.
Proof.
  intros Hlen Htail.
  rewrite <- (app_nil_r mus) at 1.
  rewrite SOC_projection_tail_eq, SOC_projection_eq_blocks by assumption.
  reflexivity.
Qed.

Lemma SOC_projection_zeroes_partial_block_witness :
  length ([] : ndarray) = (3 * length ([] : list R))%nat /\
  (length [Fin 7; NaN] < 3)%nat /\
  SOC_projection ([] ++ [Fin 7; NaN]) []
  = (fun out => out ++ np_zeros 2) <$> SOC_projection [] [].
Proof.
  split; [reflexivity |]; split; [cbn; lia |].
  apply (SOC_projection_zeroes_partial_block [] [Fin 7; NaN] []);
    [reflexivity | cbn; lia].
Defined.

(** X3.  Coefficients beyond the number of blocks are never read. *)
Theorem SOC_projection_ignores_surplus (lam : ndarray) (mus extra : list R) :
  length lam = (3 * length mus)%nat ->
  SOC_projection lam (mus ++ extra) = SOC_projection lam mus.
Proof.
  intros Hlen.
  rewrite <- (app_nil_r lam) at 1.
  rewrite SOC_projection_tail_eq, SOC_projection_eq_blocks
    by (assumption || (cbn; lia)).
  cbn [length np_zeros replicate]; now rewrite app_nil_r.
Qed.

Lemma SOC_projection_ignores_surplus_witness :
  length lam_axis = (3 * length [0])%nat /\
  SOC_projection lam_axis ([0] ++ [3; 4]) = SOC_projection lam_axis [0].
Proof.
  split; [reflexivity |].
  apply (SOC_projection_ignores_surplus lam_axis [0] [3; 4]); reflexivity.
Defined.

(** X4.  Contacts are projected independently: the projection of two
    stacked problems is the two projections, stacked. *)
Theorem SOC_projection_blockwise (lam1 lam2 : ndarray) (mus1 mus2 : list R) :
  length lam1 = (3 * length mus1)%nat ->
  length lam2 = (3 * length mus2)%nat ->
  SOC_projection (lam1 ++ lam2) (mus1 ++ mus2)
  = out1 ← SOC_projection lam1 mus1;
    out2 ← SOC_projection lam2 mus2;
    Ok (out1 ++ out2).
Proof.
  intros H1 H2.
  rewrite !SOC_projection_eq_blocks
    by (rewrite ?length_app; assumption || lia).
  cbn [mbind result_bind]; now rewrite SOC_blocks_app.
Qed.

Lemma SOC_projection_blockwise_witness :
  length lam_axis = (3 * length [0])%nat /\
  length lam_axis = (3 * length mus_one)%nat /\
  SOC_projection (lam_axis ++ lam_axis) ([0] ++ mus_one)
  = out1 ← SOC_projection lam_axis [0];
    out2 ← SOC_projection lam_axis mus_one;
    Ok (out1 ++ out2).
Proof.
  split; [reflexivity |]; split; [reflexivity |].
  apply (SOC_projection_blockwise lam_axis lam_axis [0] mus_one);
    reflexivity.
Defined.

(** ** Blocks by index *)











(** ** One contact in closed form *)












(** ** The projection is the nearest point of the cone *)






(** ** Where NaN comes from *)



(** ** Frictionless contacts *)





(** ** The stubs at their edges and in sequence *)

(** X13.  [compute_sig_residual] has two outcomes: [0.0] when
    [lambda_n] is not empty, and [ValueError] (the maximum of an empty
    array) when it is; [c_n] and [c_n_star] play no part, whatever their
    lengths. *)
Theorem compute_sig_residual_outcome (lambda_n c_n c_n_star : ndarray) :
  match compute_sig_residual lambda_n c_n c_n_star with
  | Ok r => r = Fin 0 /\ lambda_n <> []
  | Raise e => e = ValueError /\ lambda_n = []
  end.
Proof.
  destruct lambda_n as [| l lambda_n].
  - cbn; split; reflexivity.
  - rewrite compute_sig_residual_eq by (cbn; lia); split; [reflexivity |].
    discriminate.
Qed.

(** X14.  Once a PGS cell has bound [lam], the CCP solver hands back
    that binding: the zero impulses of the earlier problem, whatever the
    new [G], [g] and [mus] are; and the CCP cell's assignment leaves the
    module namespace as it was. *)
Theorem CCP_reuses_PGS_impulses (globals : gmap string pyobj)
    (G G' : rmatrix) (g g' : rvec) (mus mus' : list R) (tol rho : R)
    (max_iter max_iter' : Z) :
  exists globals1 : gmap string pyobj,
    assign_lam_pgs globals G g mus tol max_iter = Ok globals1 /\
    solve_contact_ADMM_CCP globals1 G' g' mus' rho max_iter'
    = Ok (PyArray (np_zeros (3 * length mus))) /\
    assign_lam_ccp globals1 G' g' mus' rho max_iter' = Ok globals1.
Proof.
  exists (<["lam"%string := PyArray (np_zeros (3 * length mus))]> globals).
  unfold assign_lam_pgs, assign_lam_ccp.
  rewrite solve_contact_eq; cbn [mbind result_bind].
  assert (E : solve_contact_ADMM_CCP
                (<["lam"%string := PyArray (np_zeros (3 * length mus))]>
                   globals) G' g' mus' rho max_iter'
              = Ok (PyArray (np_zeros (3 * length mus))))
    by apply ADMM_returns_global, lookup_insert_eq.
  rewrite E; cbn [mbind result_bind].
  repeat split; now rewrite insert_insert_eq.
Qed.

Lemma zeros_in_cone (mus : list R) :
  blocks_all in_cone (np_zeros (3 * length mus)) mus.
Proof.
  induction mus as [| mu mus IH]; [exact I |].
  replace (3 * length (mu :: mus))%nat with (3 + 3 * length mus)%nat
    by (cbn [length]; lia).
  cbn [np_zeros replicate Nat.add blocks_all]; split; [| exact IH].
  apply in_cone_Fin; rewrite ?tnorm_0_0; lra.
Qed.

(** X15.  The impulse [solve_contact] returns is feasible for its own
    [mus], of whatever sign: projecting it gives it back. *)
Theorem SOC_projection_after_solve_contact (G : rmatrix) (g : rvec)
    (mus : list R) (tol : R) (max_iter : Z) :
  (lam ← solve_contact G g mus tol max_iter; SOC_projection lam mus)
  = solve_contact G g mus tol max_iter.
Proof.
  rewrite solve_contact_eq; cbn [mbind result_bind].
  apply SOC_projection_fixed, zeros_in_cone.
Qed.

(** ** Scaling *)




